(** * Scene viewer orchestration: search-and-isolate, camera bookmarks, render loop

    A shallow embedding of [src/main.ts] (the search form's submit handler, the
    render loop and [isolateObjects]) and of the [PositionButton] class, with
    the properties of the design document stated over it.

    The engine, the DOM and the scene service are external: their answers are
    inputs of the model (the settlement of [iterator.next()], the image a frame
    carries, whether the canvas handed out a bitmap context), their methods are
    recorded as calls. *)

From Stdlib Require Import ZArith Floats.
From stdpp Require Import gmap list strings.

#[local] Open Scope Z_scope.

(** ** The object highlighter and [isolateObjects] (main.ts, lines 94-103) *)

Module Highlighter.

(** [objectHighlightIndices] is a [Uint8Array]: a store converts its value
    with ToUint8, and a store at an index that is not an element of the
    array (negative, or at or beyond the length) is dropped. *)
Definition to_uint8 (v : Z) : Z := v mod 256.

Inductive call :=
| CFill (v : Z)
| CStore (id v : Z)
| CCommit.

#[global] Instance call_eq_dec : EqDecision call.
Proof. solve_decision. Defined.

(** The part of [scene.objectHighlighter] the program touches: the index
    array, and the calls made on the highlighter so far, oldest first. *)
Record ObjectHighlighter := mkHighlighter {
  objectHighlightIndices : list Z;
  calls : list call
}.

(** [typedArray.fill(v)] *)
Definition fill_array (v : Z) (a : list Z) : list Z :=
  replicate (length a) (to_uint8 v).

(** [typedArray[id] = v] *)
Definition store_array (id v : Z) (a : list Z) : list Z :=
  if decide (0 <= id) then <[Z.to_nat id := to_uint8 v]> a else a.

Definition fill (v : Z) (h : ObjectHighlighter) : ObjectHighlighter :=
  {| objectHighlightIndices := fill_array v (objectHighlightIndices h);
     calls := calls h ++ [CFill v] |}.

Definition store (id v : Z) (h : ObjectHighlighter) : ObjectHighlighter :=
  {| objectHighlightIndices := store_array id v (objectHighlightIndices h);
     calls := calls h ++ [CStore id v] |}.

Definition commit (h : ObjectHighlighter) : ObjectHighlighter :=
  {| objectHighlightIndices := objectHighlightIndices h;
     calls := calls h ++ [CCommit] |}.

(** [ids.forEach((id) => (indices[id] = 0))] *)
Definition forEach_show (ids : list Z) (h : ObjectHighlighter) : ObjectHighlighter :=
  foldl (fun acc id => store id 0 acc) h ids.

Definition isolateObjects (ids : list Z) (h : ObjectHighlighter) : ObjectHighlighter :=
  if decide (length ids = 0%nat) then
    commit (fill 0 h)
  else
    commit (forEach_show ids (fill 255 h)).

(** How often [commit] was called. *)
Definition commits (h : ObjectHighlighter) : nat :=
  length (filter (fun c => c = CCommit) (calls h)).

(** The group number a call writes into the array, if it writes. *)
Definition written_group (c : call) : option Z :=
  match c with
  | CFill v | CStore _ v => Some (to_uint8 v)
  | CCommit => None
  end.

(** An id names no element of the array [a]. *)
Definition outside (a : list Z) (id : Z) : Prop :=
  id < 0 ∨ Z.of_nat (length a) <= id.

End Highlighter.

(** ** The bookmark button (PositionButton) *)

Module PositionButton.

Definition vec3 : Type := float * float * float.
Definition quat : Type := float * float * float * float.

Record Camera := mkCamera {
  position : vec3;
  rotation : quat
}.

(** The fields of a [PositionButton]; its [camera] field is a reference to
    the shared camera, which the handler receives as it is at the event. *)
Record Button := mkButton {
  positionX : float;
  positionY : float;
  positionZ : float;
  stored_rotation : quat
}.

Record MouseEvent := mkMouseEvent {
  shiftKey : bool;
  button : Z
}.

(** What the handler does to the camera object: property reads, and the
    controller's [moveTo]. *)
Inductive effect :=
| GetPosition
| GetRotation
| MoveTo (p : vec3) (r : quat).

Definition constructor : Button :=
  {| positionX := 0%float;
     positionY := 0%float;
     positionZ := 0%float;
     stored_rotation := (0, 0, 0, 0)%float |}.

(** [button.onmousedown] as installed by [generateButton]: the button after
    the event and the effects on the camera, in order. The spread
    [[...this.camera.rotation]] copies the four components. *)
Definition onmousedown (e : MouseEvent) (camera : Camera) (this : Button)
  : Button * list effect :=
  if shiftKey e && (button e =? 0) then
    let positions := position camera in
    let rotation' := rotation camera in
    ({| positionX := positions.1.1;
        positionY := positions.1.2;
        positionZ := positions.2;
        stored_rotation := rotation' |},
     [GetPosition; GetRotation])
  else if button e =? 0 then
    let movePosition : vec3 := (positionX this, positionY this, positionZ this) in
    (this, [MoveTo movePosition (stored_rotation this)])
  else
    (this, []).

Definition is_moveTo (x : effect) : bool :=
  match x with MoveTo _ _ => true | _ => false end.

Definition is_read (x : effect) : bool :=
  match x with GetPosition | GetRotation => true | MoveTo _ _ => false end.

(** An event performs a recall when it calls [moveTo], a capture when it
    reads the camera's pose. *)
Definition recalls (out : Button * list effect) : bool := existsb is_moveTo out.2.
Definition captures (out : Button * list effect) : bool := existsb is_read out.2.

Definition zero_position : vec3 := (0, 0, 0)%float.
Definition identity_orientation : quat := (0, 0, 0, 1)%float.

End PositionButton.

(** ** The search form's submit handler (main.ts, lines 40-65) *)

Module Search.

Import Highlighter.

(** How the promise of [iterator.next()] settles: with a match, with the end
    of the sequence, or rejected. *)
Inductive settlement :=
| Yield (id : Z)
| Done
| Throw.

(** What the event loop delivers: a submit event carrying the text of the
    search input, or the settlement a handler suspended in its [for await]
    is waiting for. Handlers are named by the number of the
    [AbortController] they created. *)
Inductive input :=
| Submit (text : string)
| Resume (token : nat) (s : settlement).

Inductive event :=
| NewAbortController (token : nat)
| Abort (token : nat)
| PreventDefault
| SearchCall (searchPattern : string) (signal : nat)
| Next (token : nat)
| Push (token : nat) (id : Z)
| Isolate (token : nat) (ids : list Z)
| Rejected (token : nat).

#[global] Instance event_eq_dec : EqDecision event.
Proof. solve_decision. Defined.

Record State := mkState {
  searching : bool;                   (* [let searching] of [main] *)
  scene : option ObjectHighlighter;   (* [view.scene] *)
  controllers : nat;                  (* AbortControllers created so far *)
  aborted : gset nat;                 (* those whose [abort()] was called *)
  collecting : gmap nat (list Z);     (* suspended handlers, with [result] *)
  trace : list event                  (* calls made so far, oldest first *)
}.

Definition set_searching (b : bool) (st : State) : State :=
  mkState b (scene st) (controllers st) (aborted st) (collecting st) (trace st).

Definition set_scene (s : option ObjectHighlighter) (st : State) : State :=
  mkState (searching st) s (controllers st) (aborted st) (collecting st) (trace st).

Definition set_collecting (c : gmap nat (list Z)) (st : State) : State :=
  mkState (searching st) (scene st) (controllers st) (aborted st) c (trace st).

Definition emit (es : list event) (st : State) : State :=
  mkState (searching st) (scene st) (controllers st) (aborted st) (collecting st)
          (trace st ++ es).

(** [new AbortController()]: the next unused number. *)
Definition new_controller (st : State) : nat * State :=
  (controllers st,
   mkState (searching st) (scene st) (S (controllers st)) (aborted st)
           (collecting st) (trace st ++ [NewAbortController (controllers st)])).

(** [abortController.abort()] *)
Definition abort (t : nat) (st : State) : State :=
  mkState (searching st) (scene st) (controllers st) ({[t]} ∪ aborted st)
          (collecting st) (trace st ++ [Abort t]).

(** The handler from its entry to its first suspension (lines 43-55). *)
Definition submit (text : string) (st : State) : State :=
  let '(abortController, st) := new_controller st in
  let st :=
    if searching st then set_searching false (abort abortController st) else st in
  let st := set_searching true st in
  let st := emit [PreventDefault] st in
  match scene st with
  | Some _ =>
      let st := emit [SearchCall text abortController] st in
      (* search returns an iterator object, so [if(iterator)] holds;
         const result = []; the loop asks for the first match *)
      emit [Next abortController] (set_collecting (<[abortController := []]> (collecting st)) st)
  | None => st
  end.

(** The handler of [token] resumed by the settlement it awaits
    (lines 55-61). A settlement for a handler that is not suspended does
    not occur; the state is returned as it is. *)
Definition resume (token : nat) (s : settlement) (st : State) : State :=
  match collecting st !! token with
  | None => st
  | Some result =>
      match s with
      | Yield id =>
          emit [Push token id; Next token]
               (set_collecting (<[token := result ++ [id]]> (collecting st)) st)
      | Throw =>
          emit [Rejected token] (set_collecting (delete token (collecting st)) st)
      | Done =>
          let st := set_collecting (delete token (collecting st)) st in
          match scene st with
          | Some h =>
              let st := emit [Isolate token result] st in
              let st := set_scene (Some (isolateObjects result h)) st in
              set_searching false st
          | None =>
              (* isolateObjects reads a property of undefined and throws *)
              emit [Rejected token] st
          end
      end
  end.

Definition step (st : State) (i : input) : State :=
  match i with
  | Submit text => submit text st
  | Resume token s => resume token s st
  end.

Definition run (st : State) (inputs : list input) : State := foldl step st inputs.

(** The state in which [main] registers the handler: the scene is loaded
    (line 34), no search has been made. *)
Definition main_init (h : ObjectHighlighter) : State :=
  {| searching := false;
     scene := Some h;
     controllers := 0;
     aborted := ∅;
     collecting := ∅;
     trace := [] |}.

(** Suspended handlers hold controllers created earlier. *)
Definition tokens_created (st : State) : Prop :=
  ∀ t, is_Some (collecting st !! t) → (t < controllers st)%nat.

(** A second query submitted while the first is still collecting. *)
Definition superseding_inputs : list input :=
  [Submit "wall"; Resume 0 (Yield 12); Submit "door";
   Resume 0 (Yield 99); Resume 0 Done].

(** A query whose match sequence fails after one match. *)
Definition failing_inputs : list input :=
  [Submit "wall"; Resume 0 (Yield 12); Resume 0 Throw].

(** The ids a session handed to [isolateObjects], if it did. *)
Definition isolated_by (token : nat) (st : State) : list (list Z) :=
  omap (fun e => match e with
                 | Isolate t ids => if decide (t = token) then Some ids else None
                 | _ => None
                 end) (trace st).

(** The matches delivered to the handler of [t], in the order of arrival. *)
Definition yields_for (t : nat) (inputs : list input) : list Z :=
  omap (fun i => match i with
                 | Resume t' (Yield id) => if decide (t' = t) then Some id else None
                 | _ => None
                 end) inputs.

(** The input ends the sequence of [t]: it completes or fails. *)
Definition ends (t : nat) (i : input) : bool :=
  match i with
  | Resume t' Done | Resume t' Throw => bool_decide (t' = t)
  | _ => false
  end.

(** The input is the completion of some sequence. *)
Definition completes (i : input) : bool :=
  match i with
  | Resume _ Done => true
  | _ => false
  end.

(** The input completes a search that is running: it is the end of the
    sequence of a handler suspended in state [st]. *)
Definition completes_in (st : State) (i : input) : bool :=
  match i with
  | Resume t Done => bool_decide (is_Some (collecting st !! t))
  | _ => false
  end.

(** How many searches complete when [inputs] are delivered from [st] on;
    submissions, matches, failures and searches still pending do not
    count. *)
Fixpoint completions (st : State) (inputs : list input) : nat :=
  match inputs with
  | [] => 0
  | i :: rest =>
      ((if completes_in st i then 1 else 0) + completions (step st i) rest)%nat
  end.

Definition is_submit (i : input) : bool :=
  match i with Submit _ => true | Resume _ _ => false end.

Definition is_search_call (e : event) : bool :=
  match e with SearchCall _ _ => true | _ => false end.

Definition is_isolate (e : event) : bool :=
  match e with Isolate _ _ => true | _ => false end.

(** The index array of the loaded scene. *)
Definition indices_of (st : State) : option (list Z) :=
  objectHighlightIndices <$> scene st.

End Search.

(** ** The render loop (main.ts, lines 36 and 67-85) *)

Module RenderLoop.

(** Images are named by a number. *)
Inductive call :=
| ApplySettings (width height : Z)
| Render
| GetImage
| TransferFromImageBitmap (image : nat)
| Close (image : nat).

#[global] Instance call_eq_dec : EqDecision call.
Proof. solve_decision. Defined.

(** What one iteration reads from outside: the canvas size and what
    [output.getImage()] resolves to. *)
Record Frame := mkFrame {
  clientWidth : Z;
  clientHeight : Z;
  image : option nat
}.

(** [has_ctx]: whether [canvas.getContext("bitmaprenderer")] returned a
    context (it may return null); [displayed]: the bitmap the canvas
    shows. *)
Record State := mkState {
  has_ctx : bool;
  displayed : option nat;
  calls : list call
}.

Definition emit (cs : list call) (st : State) : State :=
  mkState (has_ctx st) (displayed st) (calls st ++ cs).

(** [ctx?.transferFromImageBitmap(image)] *)
Definition transfer (img : nat) (st : State) : State :=
  if has_ctx st then
    mkState (has_ctx st) (Some img) (calls st ++ [TransferFromImageBitmap img])
  else st.

(** The body of [while (true)]. *)
Definition iteration (f : Frame) (st : State) : State :=
  let st := emit [ApplySettings (clientWidth f) (clientHeight f)] st in
  let st := emit [Render] st in
  let st := emit [GetImage] st in
  match image f with
  | Some img =>
      let st := transfer img st in
      emit [Close img] st
  | None => st
  end.

(** The loop over the frames the engine produces, as far as they are
    given: every finite prefix of the unbounded run. *)
Fixpoint loop (frames : list Frame) (st : State) : State :=
  match frames with
  | [] => st
  | f :: rest => loop rest (iteration f st)
  end.

Definition start (ctx : bool) : State :=
  {| has_ctx := ctx; displayed := None; calls := [] |}.

(** The calls one iteration adds. *)
Definition added (f : Frame) (st : State) : list call :=
  drop (length (calls st)) (calls (iteration f st)).

(** The iteration as the design document words it: an image the engine
    returns is transferred to the display surface and released right
    after; without an image the surface is left as it is. *)
Definition displays_and_releases (f : Frame) (st : State) : Prop :=
  match image f with
  | Some img =>
      added f st = [ApplySettings (clientWidth f) (clientHeight f); Render; GetImage;
                    TransferFromImageBitmap img; Close img]
      ∧ displayed (iteration f st) = Some img
  | None =>
      added f st = [ApplySettings (clientWidth f) (clientHeight f); Render; GetImage]
      ∧ displayed (iteration f st) = displayed st
  end.

Definition closed_image (c : call) : option nat :=
  match c with Close img => Some img | _ => None end.

Definition transferred_image (c : call) : option nat :=
  match c with TransferFromImageBitmap img => Some img | _ => None end.

Definition applied_size (c : call) : option (Z * Z) :=
  match c with ApplySettings w h => Some (w, h) | _ => None end.

Definition is_render (c : call) : bool :=
  match c with Render => true | _ => false end.

End RenderLoop.

(** ** The buttons of [main] (main.ts, lines 37-39 and 88-92;
       [generateButton], lines 18-23) *)

Module Buttons.

Import PositionButton.

(** A button element: its label, and the [PositionButton] whose handler is
    its [onmousedown], by the order of creation. *)
Record Element := mkElement {
  innerText : string;
  owner : nat
}.

(** The elements of class [button-container] in document order, each with
    its children, and the [PositionButton] objects created so far. *)
Record Page := mkPage {
  containers : list (list Element);
  buttons : list Button
}.

(** [createButtons]: [new PositionButton(camera)], then [generateButton]:
    the new element is appended to the first container;
    [buttonContainer[0]] is undefined when there is none, and the call of
    [appendChild] on it throws. *)
Definition createButtons (p : Page) : option Page :=
  let slot := length (buttons p) in
  let button := constructor in
  match containers p with
  | [] => None
  | first :: others =>
      Some {| containers := (first ++ [mkElement "Slot" slot]) :: others;
              buttons := buttons p ++ [button] |}
  end.

(** [for (let index = 0; index < n; index++) createButtons(view.camera)];
    [main] runs it with [n = 3]. *)
Fixpoint create_loop (n : nat) (p : Page) : option Page :=
  match n with
  | O => Some p
  | S n' =>
      match createButtons p with
      | Some p' => create_loop n' p'
      | None => None
      end
  end.

(** A mousedown on the element of one button, with the camera as it is
    then. *)
Record Click := mkClick {
  slot : nat;
  event : MouseEvent;
  camera_at : Camera
}.

(** The handler of the clicked button runs on its own object. *)
Definition click (c : Click) (bs : list Button) : list Button * list effect :=
  match bs !! slot c with
  | Some b =>
      let out := onmousedown (event c) (camera_at c) b in
      (<[slot c := out.1]> bs, out.2)
  | None => (bs, [])
  end.

Definition clicks (cs : list Click) (bs : list Button) : list Button :=
  foldl (fun acc c => (click c acc).1) bs cs.

(** The pose a capture stores. *)
Definition pose_of (camera : Camera) : Button :=
  {| positionX := (position camera).1.1;
     positionY := (position camera).1.2;
     positionZ := (position camera).2;
     stored_rotation := rotation camera |}.

(** The pose of the last capture on button [i] among the clicks, [b] when
    there is none. *)
Definition last_capture (i : nat) (cs : list Click) (b : Button) : Button :=
  foldl (fun acc c =>
           if bool_decide (slot c = i) && (shiftKey (event c) && (button (event c) =? 0))
           then pose_of (camera_at c) else acc) b cs.

End Buttons.

(** * Properties *)

(** ** [isolateObjects] *)

Section isolate_facts.

Import Highlighter.

Implicit Types (ids : list Z) (a : list Z) (h : ObjectHighlighter) (i : nat).

Lemma store_array_length id v a : length (store_array id v a) = length a.
Proof. unfold store_array. case_decide; [apply length_insert | done]. Qed.

Lemma store_array_lookup id v a i :
  store_array id v a !! i =
  if decide (id = Z.of_nat i) then (fun _ => to_uint8 v) <$> (a !! i) else a !! i.
Proof.
  unfold store_array. destruct (decide (0 <= id)) as [Hid|Hid].
  - rewrite list_lookup_insert. destruct (decide (id = Z.of_nat i)) as [->|Hne].
    + rewrite Nat2Z.id. case_decide as Hc.
      * destruct Hc as [_ Hlt]. apply lookup_lt_is_Some_2 in Hlt as [x ->]. done.
      * rewrite lookup_ge_None_2; [done | lia].
    + rewrite decide_False; [done | lia].
  - rewrite decide_False; [done | lia].
Qed.

Lemma forEach_show_indices ids h :
  objectHighlightIndices (forEach_show ids h) =
  foldl (fun acc id => store_array id 0 acc) (objectHighlightIndices h) ids.
Proof.
  unfold forEach_show. revert h.
  induction ids as [|id ids IH]; intros h; [done | simpl; by rewrite IH].
Qed.

Lemma forEach_show_calls ids h :
  calls (forEach_show ids h) = calls h ++ ((fun id => CStore id 0) <$> ids).
Proof.
  unfold forEach_show. revert h. induction ids as [|id ids IH]; intros h; simpl.
  - by rewrite app_nil_r.
  - rewrite IH. simpl. by rewrite <- app_assoc.
Qed.

Lemma show_length ids a :
  length (foldl (fun acc id => store_array id 0 acc) a ids) = length a.
Proof.
  revert a. induction ids as [|id ids IH]; intros a; simpl; [done|].
  by rewrite IH, store_array_length.
Qed.

Lemma show_lookup ids a i :
  foldl (fun acc id => store_array id 0 acc) a ids !! i =
  if decide (Z.of_nat i ∈ ids) then (fun _ => 0) <$> (a !! i) else a !! i.
Proof.
  revert a. induction ids as [|id ids IH]; intros a; cbn [foldl].
  - destruct (decide (Z.of_nat i ∈ [])) as [Hin|_]; [|done].
    by apply not_elem_of_nil in Hin.
  - rewrite IH, store_array_lookup. clear IH.
    destruct (decide (Z.of_nat i ∈ id :: ids)) as [Hin|Hin];
      rewrite elem_of_cons in Hin.
    + destruct (decide (Z.of_nat i ∈ ids)) as [Hids|Hids].
      * case_decide; [|done]. by destruct (a !! i).
      * destruct Hin as [<-|?]; [|done]. by rewrite decide_True.
    + rewrite (decide_False (P := Z.of_nat i ∈ ids)) by tauto.
      rewrite decide_False; [done|]. intros ->. tauto.
Qed.

(** The index array after [isolateObjects] is a function of the id list and
    of the array's length alone. *)
Lemma isolateObjects_indices ids h :
  objectHighlightIndices (isolateObjects ids h) =
  if decide (length ids = 0%nat) then
    replicate (length (objectHighlightIndices h)) 0
  else
    foldl (fun acc id => store_array id 0 acc)
          (replicate (length (objectHighlightIndices h)) 255) ids.
Proof.
  unfold isolateObjects. case_decide; simpl; [done|].
  by rewrite forEach_show_indices.
Qed.

Lemma isolateObjects_length ids h :
  length (objectHighlightIndices (isolateObjects ids h)) =
  length (objectHighlightIndices h).
Proof.
  rewrite isolateObjects_indices. case_decide.
  - apply length_replicate.
  - by rewrite show_length, length_replicate.
Qed.

Lemma isolateObjects_calls ids h :
  calls (isolateObjects ids h) =
  calls h ++
    (if decide (length ids = 0%nat) then [CFill 0]
     else CFill 255 :: ((fun id => CStore id 0) <$> ids)) ++ [CCommit].
Proof.
  unfold isolateObjects. case_decide; simpl.
  - by rewrite <- app_assoc.
  - rewrite forEach_show_calls. simpl. by rewrite <- !app_assoc.
Qed.

(** Every entry after [isolateObjects], by index. *)
Lemma isolateObjects_lookup ids h i g :
  objectHighlightIndices (isolateObjects ids h) !! i = Some g →
  if decide (ids = []) then g = 0
  else if decide (Z.of_nat i ∈ ids) then g = 0 else g = 255.
Proof.
  rewrite isolateObjects_indices. destruct ids as [|id ids].
  - simpl. by intros [-> _]%lookup_replicate.
  - destruct (decide (length (id :: ids) = 0%nat)) as [?|_]; [done|].
    destruct (decide (id :: ids = [])) as [?|_]; [done|].
    rewrite show_lookup. case_decide.
    + destruct (replicate _ _ !! i); simpl; congruence.
    + by intros [-> _]%lookup_replicate.
Qed.

Lemma isolateObjects_commits ids h :
  commits (isolateObjects ids h) = S (commits h).
Proof.
  unfold commits. rewrite isolateObjects_calls, !filter_app, !length_app.
  assert (Hw : filter (fun c => c = CCommit)
                 (if decide (length ids = 0%nat) then [CFill 0]
                  else CFill 255 :: ((fun id => CStore id 0) <$> ids)) = []).
  { case_decide; [done|].
    rewrite filter_cons_False by done.
    induction ids as [|id ids' IH]; [done|].
    rewrite fmap_cons, filter_cons_False by done.
    destruct ids'; [done|]. apply IH. done. }
  rewrite Hw. simpl. lia.
Qed.

(** C3. After [isolateObjects ids]: the array keeps its length; with an
    empty [ids] every entry is group 0; otherwise the entries whose index
    occurs in [ids] are group 0 and all others group 255; and the calls
    added are entry writes followed by exactly one [commit], which comes
    last. *)
Theorem isolateObjects_groups ids h :
  length (objectHighlightIndices (isolateObjects ids h)) =
    length (objectHighlightIndices h) ∧
  (∀ i g, objectHighlightIndices (isolateObjects ids h) !! i = Some g →
     if decide (ids = []) then g = 0
     else if decide (Z.of_nat i ∈ ids) then g = 0 else g = 255) ∧
  commits (isolateObjects ids h) = S (commits h) ∧
  ∃ writes, calls (isolateObjects ids h) = calls h ++ writes ++ [CCommit]
            ∧ CCommit ∉ writes.
Proof.
  split; [apply isolateObjects_length|].
  split; [apply isolateObjects_lookup|].
  split; [apply isolateObjects_commits|].
  - rewrite isolateObjects_calls. eexists. split; [reflexivity|].
    case_decide.
    + rewrite list_elem_of_singleton. done.
    + rewrite elem_of_cons, list_elem_of_fmap. intros [?|(? & ? & _)]; done.
Qed.

(** C6. Isolating the same ids twice in a row leaves the index array as
    isolating them once does, from every starting state. *)
Theorem isolateObjects_idempotent ids h :
  objectHighlightIndices (isolateObjects ids (isolateObjects ids h)) =
  objectHighlightIndices (isolateObjects ids h).
Proof.
  rewrite (isolateObjects_indices ids (isolateObjects ids h)).
  rewrite isolateObjects_length. by rewrite <- isolateObjects_indices.
Qed.

(** C10. After [isolateObjects], whatever the id list, every entry of the
    index array is group 0 or group 255, the array has the length it had,
    and no other group number is written on the way: every fill and every
    store the call adds writes 0 or 255. *)
Theorem isolateObjects_only_0_255 ids h :
  Forall (fun g => g = 0 ∨ g = 255) (objectHighlightIndices (isolateObjects ids h)) ∧
  length (objectHighlightIndices (isolateObjects ids h)) =
    length (objectHighlightIndices h) ∧
  ∃ added, calls (isolateObjects ids h) = calls h ++ added ∧
           Forall (fun g => g = 0 ∨ g = 255) (omap written_group added).
Proof.
  split; [|split].
  - apply Forall_lookup. intros i g Hg.
    apply isolateObjects_lookup in Hg.
    repeat case_decide; auto.
  - apply isolateObjects_length.
  - rewrite isolateObjects_calls. eexists. split; [reflexivity|].
    rewrite omap_app. apply Forall_app. split; [|by constructor].
    case_decide.
    + repeat constructor.
    + simpl. constructor; [by right|].
      clear. induction ids as [|id ids IH]; simpl; constructor; [by left | done].
Qed.

(** Ids 1 and 3 of five objects, with an id beyond the array and a
    negative one, which the typed array drops. *)
Example isolate_two_of_five :
  isolateObjects [3; 1; 9; -2] (mkHighlighter [0; 7; 255; 255; 1] []) =
    mkHighlighter [255; 0; 255; 0; 255]
      [CFill 255; CStore 3 0; CStore 1 0; CStore 9 0; CStore (-2) 0; CCommit].
Proof. reflexivity. Qed.

Example isolate_none_of_five :
  isolateObjects [] (mkHighlighter [0; 7; 255; 255; 1] []) =
    mkHighlighter [0; 0; 0; 0; 0] [CFill 0; CCommit].
Proof. reflexivity. Qed.

End isolate_facts.

(** ** The bookmark button *)

Section bookmark_facts.

Import PositionButton.

Implicit Types (e : MouseEvent) (camera : Camera) (b : Button).

(** The three outcomes of the handler, by the event's fields. *)
Lemma onmousedown_capture e camera b :
  shiftKey e = true → button e = 0 →
  onmousedown e camera b =
    ({| positionX := (position camera).1.1;
        positionY := (position camera).1.2;
        positionZ := (position camera).2;
        stored_rotation := rotation camera |},
     [GetPosition; GetRotation]).
Proof. intros Hs Hb. unfold onmousedown. by rewrite Hs, Hb. Qed.

Lemma onmousedown_recall e camera b :
  shiftKey e = false → button e = 0 →
  onmousedown e camera b =
    (b, [MoveTo (positionX b, positionY b, positionZ b) (stored_rotation b)]).
Proof. intros Hs Hb. unfold onmousedown. by rewrite Hs, Hb. Qed.

Lemma onmousedown_other e camera b :
  button e ≠ 0 → onmousedown e camera b = (b, []).
Proof.
  intros Hb. unfold onmousedown.
  apply Z.eqb_neq in Hb. rewrite Hb. by rewrite andb_false_r.
Qed.

Lemma zero_quat_not_identity : ((0, 0, 0, 0)%float : quat) ≠ identity_orientation.
Proof.
  unfold identity_orientation. intros H.
  assert (E : PrimFloat.eqb 0 0 = PrimFloat.eqb 0 1) by congruence.
  vm_compute in E. discriminate.
Qed.

(** C4. A plain primary-button press on a button that never captured calls
    [moveTo] once, with the zero position and with the rotation the
    constructor stored, the all-zero quaternion, which is not the identity
    orientation (0,0,0,1). *)
Theorem default_recall_moveTo camera :
  onmousedown (mkMouseEvent false 0) camera constructor =
    (constructor, [MoveTo zero_position (0, 0, 0, 0)%float]) ∧
  ((0, 0, 0, 0)%float : quat) ≠ identity_orientation.
Proof. split; [reflexivity | apply zero_quat_not_identity]. Qed.

(** C5. A capture while the camera is at pose [P], followed by a recall
    (wherever the camera is by then), makes exactly one [moveTo] call, with
    the position and the orientation of [P]. *)
Theorem capture_then_recall (P later : Camera) b (e1 e2 : MouseEvent) :
  shiftKey e1 = true → button e1 = 0 →
  shiftKey e2 = false → button e2 = 0 →
  (onmousedown e2 later (onmousedown e1 P b).1).2 =
    [MoveTo (position P) (rotation P)].
Proof.
  intros Hs1 Hb1 Hs2 Hb2.
  rewrite (onmousedown_capture e1 P b Hs1 Hb1).
  rewrite (onmousedown_recall e2 later _ Hs2 Hb2). simpl.
  by destruct P as [[[x y] z] r].
Qed.

Lemma capture_then_recall_witness :
  (onmousedown (mkMouseEvent false 0)
               (mkCamera (7, 7, 7)%float (0, 1, 0, 0)%float)
               (onmousedown (mkMouseEvent true 0)
                            (mkCamera (1, 2, 3)%float (0, 0, 0, 1)%float)
                            constructor).1).2 =
    [MoveTo (1, 2, 3)%float (0, 0, 0, 1)%float].
Proof.
  apply (capture_then_recall
           (mkCamera (1, 2, 3)%float (0, 0, 0, 1)%float)
           (mkCamera (7, 7, 7)%float (0, 1, 0, 0)%float)
           constructor (mkMouseEvent true 0) (mkMouseEvent false 0));
    reflexivity.
Defined.

(** C9. One mousedown event performs a capture exactly when shift is held
    with the primary button, a recall exactly when the primary button is
    pressed without shift; so with the primary button exactly one of the
    two, never both, and with any other button neither: the button keeps
    its pose and the camera is not touched. A capture stores the camera's
    position and rotation in the button and does not call [moveTo]; a
    recall leaves the stored pose as it is and calls [moveTo] once, with
    it. *)
Theorem gesture_exclusive e camera b :
  captures (onmousedown e camera b) = shiftKey e && (button e =? 0) ∧
  recalls (onmousedown e camera b) = negb (shiftKey e) && (button e =? 0) ∧
  captures (onmousedown e camera b) && recalls (onmousedown e camera b) = false ∧
  (if button e =? 0
   then xorb (captures (onmousedown e camera b)) (recalls (onmousedown e camera b)) = true
   else onmousedown e camera b = (b, [])) ∧
  onmousedown e camera b =
    (if captures (onmousedown e camera b) then
       ({| positionX := (position camera).1.1;
           positionY := (position camera).1.2;
           positionZ := (position camera).2;
           stored_rotation := rotation camera |},
        [GetPosition; GetRotation])
     else if recalls (onmousedown e camera b) then
       (b, [MoveTo (positionX b, positionY b, positionZ b) (stored_rotation b)])
     else (b, [])).
Proof.
  unfold onmousedown.
  destruct (shiftKey e), (button e =? 0); simpl; auto.
Qed.

(** A recall leaves the stored pose as it is, so it can be replayed. *)
Lemma recall_keeps_pose e camera b :
  shiftKey e = false → (onmousedown e camera b).1 = b.
Proof.
  intros Hs. unfold onmousedown. rewrite Hs. simpl. by destruct (button e =? 0).
Qed.

End bookmark_facts.

(** ** The submit handler *)

Section search_facts.

Import Highlighter Search.

Implicit Types (st : State) (i : input) (inputs : list input) (t : nat)
               (h : ObjectHighlighter) (text : string).

(** The scene, once loaded, stays loaded. *)
Lemma step_scene_loaded st i : is_Some (scene st) → is_Some (scene (step st i)).
Proof.
  intros [h Hh]. destruct i as [text|t s]; simpl.
  - unfold submit. simpl. destruct (searching st); simpl; rewrite Hh; simpl; eauto.
  - unfold resume. destruct (collecting st !! t) as [result|]; [|eauto].
    destruct s; simpl; rewrite ?Hh; simpl; eauto.
Qed.

Lemma run_scene_loaded inputs st : is_Some (scene st) → is_Some (scene (run st inputs)).
Proof.
  unfold run. revert st. induction inputs as [|i inputs IH]; intros st Hst; simpl.
  - done.
  - apply IH. by apply step_scene_loaded.
Qed.

(** What one submission does when the scene is loaded. *)
Lemma submit_loaded text st h :
  scene st = Some h →
  trace (submit text st) =
    trace st ++ [NewAbortController (controllers st)]
             ++ (if searching st then [Abort (controllers st)] else [])
             ++ [PreventDefault; SearchCall text (controllers st); Next (controllers st)]
  ∧ collecting (submit text st) = <[controllers st := []]> (collecting st)
  ∧ aborted (submit text st) =
      (if searching st then {[controllers st]} ∪ aborted st else aborted st)
  ∧ searching (submit text st) = true
  ∧ controllers (submit text st) = S (controllers st)
  ∧ scene (submit text st) = Some h.
Proof.
  intros Hh. unfold submit. simpl.
  destruct (searching st); simpl; rewrite Hh; simpl;
    rewrite <- ?app_assoc; simpl; done.
Qed.

(** Only a submission aborts, and only the controller it has just
    created. *)
Lemma step_aborted st i t :
  t ∈ aborted (step st i) →
  t ∈ aborted st ∨ (t = controllers st ∧ searching st = true ∧ ∃ text, i = Submit text).
Proof.
  destruct i as [text|t' s]; simpl.
  - unfold submit. simpl.
    destruct (searching st) eqn:Hs; simpl; destruct (scene st); simpl.
    + rewrite elem_of_union, elem_of_singleton. intros [->|?]; eauto.
    + rewrite elem_of_union, elem_of_singleton. intros [->|?]; eauto.
    + auto.
    + auto.
  - unfold resume. destruct (collecting st !! t') as [result|]; [|auto].
    destruct s; simpl; auto. destruct (scene st); simpl; auto.
Qed.

Lemma step_tokens_created st i : tokens_created st → tokens_created (step st i).
Proof.
  intros Hinv t. destruct i as [text|t' s]; simpl.
  - unfold submit. simpl.
    destruct (searching st); simpl; destruct (scene st); simpl;
      rewrite ?lookup_insert; try case_decide; try intros Hsome;
      try (apply Hinv in Hsome); lia.
  - unfold resume. destruct (collecting st !! t') as [result|] eqn:Ht'; [|apply Hinv].
    destruct s; simpl.
    + rewrite lookup_insert. case_decide as Heq.
      * intros _. subst t'. apply Hinv. by rewrite Ht'.
      * apply Hinv.
    + destruct (scene st); simpl; rewrite lookup_delete; case_decide;
        try apply Hinv; by intros [? ?].
    + rewrite lookup_delete; case_decide; try apply Hinv; by intros [? ?].
Qed.

Lemma run_tokens_created inputs st : tokens_created st → tokens_created (run st inputs).
Proof.
  unfold run. revert st. induction inputs as [|i inputs IH]; intros st Hst; simpl.
  - done.
  - apply IH. by apply step_tokens_created.
Qed.

Lemma controllers_mono st i : (controllers st ≤ controllers (step st i))%nat.
Proof.
  destruct i as [text|t s]; simpl.
  - unfold submit. simpl. destruct (searching st); simpl; destruct (scene st); simpl; lia.
  - unfold resume. destruct (collecting st !! t) as [result|]; [|done].
    destruct s; simpl; try done. destruct (scene st); simpl; done.
Qed.

(** No later input aborts the controller of a handler that was created
    before: the signal a collecting session holds is never triggered by the
    submissions that follow it. *)
Lemma earlier_controller_never_aborted inputs st t :
  (t < controllers st)%nat → t ∉ aborted st → t ∉ aborted (run st inputs).
Proof.
  unfold run. revert st. induction inputs as [|i inputs IH]; intros st Hlt Hna; simpl.
  - done.
  - apply IH.
    + pose proof (controllers_mono st i). lia.
    + intros [?|(-> & _)]%step_aborted; [done | lia].
Qed.

(** X17. In particular the controller of a session that is collecting, and
    not aborted at its own creation, is not aborted by anything that
    follows. *)
Lemma collecting_session_never_aborted h inputs more t :
  is_Some (collecting (run (main_init h) inputs) !! t) →
  t ∉ aborted (run (main_init h) inputs) →
  t ∉ aborted (run (run (main_init h) inputs) more).
Proof.
  intros Hcol Hna. apply earlier_controller_never_aborted; [|done].
  apply (run_tokens_created inputs (main_init h)); [|done].
  intros t' [r Hr]. vm_compute in Hr. discriminate Hr.
Qed.

(** C1. A second query is submitted while the first session (controller 0)
    is still collecting: the only controller aborted is the second
    submission's own, number 1, right after it is created; controller 0 is
    never aborted, the first session keeps collecting and its ids
    [12; 99] are passed to [isolateObjects]. *)
Theorem superseded_session_still_isolates h :
  trace (run (main_init h) superseding_inputs) =
    [NewAbortController 0; PreventDefault; SearchCall "wall" 0; Next 0;
     Push 0 12; Next 0;
     NewAbortController 1; Abort 1; PreventDefault; SearchCall "door" 1; Next 1;
     Push 0 99; Next 0;
     Isolate 0 [12; 99]] ∧
  (0%nat ∉ aborted (run (main_init h) superseding_inputs)) ∧
  (1%nat ∈ aborted (run (main_init h) superseding_inputs)) ∧
  isolated_by 0 (run (main_init h) superseding_inputs) = [[12; 99]] ∧
  scene (run (main_init h) superseding_inputs) = Some (isolateObjects [12; 99] h).
Proof.
  vm_compute. repeat split; try reflexivity.
  intros H. discriminate H.
Qed.

(** C2. A match sequence that fails after one match: [isolateObjects] is
    not called and the scene is as it was, but [searching] is still true
    and is not cleared; the next submission finds it set and aborts the
    controller it has just created before it calls [search] with its
    signal. *)
Theorem failed_search_leaves_flag_set h :
  let st := run (main_init h) failing_inputs in
  searching st = true ∧
  scene st = Some h ∧
  isolated_by 0 st = [] ∧
  collecting st = ∅ ∧
  trace (step st (Submit "door")) =
    trace st ++ [NewAbortController 1; Abort 1; PreventDefault;
                 SearchCall "door" 1; Next 1].
Proof. vm_compute. repeat split. Qed.

(** A failure never clears the flag and never touches the scene. *)
Lemma resume_throw st t :
  searching (resume t Throw st) = searching st ∧
  scene (resume t Throw st) = scene st ∧
  aborted (resume t Throw st) = aborted st.
Proof. unfold resume. by destruct (collecting st !! t). Qed.

(** C8. Whatever happened before, a submitted text, the empty string
    included, is passed as it is as the search pattern of exactly one
    [search] call, made during the submission with the controller created
    for it, and the handler then waits for the first match with an empty
    result list. *)
Theorem query_forwarded_verbatim h inputs text :
  ∃ before,
    trace (step (run (main_init h) inputs) (Submit text)) =
      trace (run (main_init h) inputs) ++ before ++
        [SearchCall text (controllers (run (main_init h) inputs));
         Next (controllers (run (main_init h) inputs))] ∧
    (∀ pattern signal, SearchCall pattern signal ∉ before) ∧
    collecting (step (run (main_init h) inputs) (Submit text))
      !! controllers (run (main_init h) inputs) = Some [].
Proof.
  destruct (run_scene_loaded inputs (main_init h)) as [h' Hh']; [by eexists|].
  destruct (submit_loaded text _ _ Hh') as (Htr & Hcol & _).
  exists ([NewAbortController (controllers (run (main_init h) inputs))]
            ++ (if searching (run (main_init h) inputs)
                then [Abort (controllers (run (main_init h) inputs))] else [])
            ++ [PreventDefault]).
  simpl step. rewrite Htr, Hcol. split; [|split].
  - by rewrite <- !app_assoc.
  - intros pattern signal.
    destruct (searching (run (main_init h) inputs)); simpl;
      rewrite ?elem_of_cons, elem_of_nil; intuition discriminate.
  - by rewrite lookup_insert_eq.
Qed.

Example empty_query_forwarded h :
  trace (run (main_init h) [Submit ""]) =
    [NewAbortController 0; PreventDefault; SearchCall "" 0; Next 0].
Proof. by vm_compute. Qed.

End search_facts.

(** ** The render loop *)

Section render_facts.

Import RenderLoop.

Implicit Types (f : Frame) (st : State) (frames : list Frame).

Lemma iteration_calls f st :
  calls (iteration f st) =
    calls st ++ [ApplySettings (clientWidth f) (clientHeight f); Render; GetImage]
             ++ match image f with
                | Some img =>
                    (if has_ctx st then [TransferFromImageBitmap img] else [])
                      ++ [Close img]
                | None => []
                end.
Proof.
  unfold iteration, transfer, emit. destruct (image f) as [img|]; simpl.
  - destruct (has_ctx st); simpl; by rewrite <- ?app_assoc.
  - by rewrite <- ?app_assoc.
Qed.

Lemma iteration_has_ctx f st : has_ctx (iteration f st) = has_ctx st.
Proof.
  unfold iteration, transfer, emit. destruct (image f); simpl; [|done].
  by destruct (has_ctx st).
Qed.

Lemma loop_app frames1 frames2 st :
  loop (frames1 ++ frames2) st = loop frames2 (loop frames1 st).
Proof.
  revert st. induction frames1 as [|f frames1 IH]; intros st; simpl; [done|].
  apply IH.
Qed.

Lemma loop_has_ctx frames st : has_ctx (loop frames st) = has_ctx st.
Proof.
  revert st. induction frames as [|f frames IH]; intros st; simpl; [done|].
  by rewrite IH, iteration_has_ctx.
Qed.

(** C7, as worded, fails when the canvas gave no bitmap context: the image
    of the frame is closed without having been transferred. *)
Lemma no_context_no_transfer :
  ¬ displays_and_releases (mkFrame 800 600 (Some 0%nat)) (start false).
Proof. unfold displays_and_releases. simpl. intros [H _]. discriminate H. Qed.

Lemma iteration_added f st :
  added f st =
    [ApplySettings (clientWidth f) (clientHeight f); Render; GetImage]
      ++ match image f with
         | Some img =>
             (if has_ctx st then [TransferFromImageBitmap img] else [])
               ++ [Close img]
         | None => []
         end.
Proof. unfold added. rewrite iteration_calls. apply drop_app_length. Qed.

Lemma iteration_displayed f st :
  displayed (iteration f st) =
    match image f with
    | Some img => if has_ctx st then Some img else displayed st
    | None => displayed st
    end.
Proof.
  unfold iteration, transfer, emit. destruct (image f); simpl; [|done].
  by destruct (has_ctx st).
Qed.

(** C7, amended. In every iteration of the loop, after the size is applied
    and the frame rendered and its image requested: an image the engine
    returns is transferred to the canvas when the canvas gave a bitmap
    context (the transfer is skipped when it gave none), and is closed
    exactly once, right after; without an image nothing more is called and
    the canvas shows what it showed; and the loop goes on with the next
    frame. *)
Theorem iteration_transfers_and_closes (earlier later : list Frame) f (s0 : State) :
  added f (loop earlier s0) =
    [ApplySettings (clientWidth f) (clientHeight f); Render; GetImage]
      ++ match image f with
         | Some img =>
             (if has_ctx s0 then [TransferFromImageBitmap img] else [])
               ++ [Close img]
         | None => []
         end ∧
  displayed (iteration f (loop earlier s0)) =
    match image f with
    | Some img => if has_ctx s0 then Some img else displayed (loop earlier s0)
    | None => displayed (loop earlier s0)
    end ∧
  loop (earlier ++ f :: later) s0 = loop later (iteration f (loop earlier s0)).
Proof.
  rewrite iteration_added, iteration_displayed, loop_has_ctx, loop_app. done.
Qed.

(** With a bitmap context the iteration is as the document words it. *)
Lemma iteration_with_context f st :
  has_ctx st = true → displays_and_releases f st.
Proof.
  intros Hctx. unfold displays_and_releases.
  rewrite iteration_added, iteration_displayed, Hctx. by destruct (image f).
Qed.

Example two_frames :
  calls (loop [mkFrame 800 600 None; mkFrame 640 480 (Some 4%nat)] (start true)) =
    [ApplySettings 800 600; Render; GetImage;
     ApplySettings 640 480; Render; GetImage; TransferFromImageBitmap 4; Close 4].
Proof. reflexivity. Qed.

End render_facts.

(** * Further properties of the code *)

(** ** [isolateObjects]: what the index array depends on *)

Section isolate_more.

Import Highlighter.

Implicit Types (ids : list Z) (a : list Z) (h : ObjectHighlighter) (i : nat).

Lemma replicate_lookup_fmap a (x : Z) i :
  replicate (length a) x !! i = (fun _ => x) <$> (a !! i).
Proof.
  destruct (a !! i) as [y|] eqn:Hi; simpl.
  - apply lookup_replicate_2. by eapply lookup_lt_Some.
  - apply lookup_replicate_None. by apply lookup_ge_None.
Qed.

(** Every entry after [isolateObjects], as a function of its index. *)
Lemma isolateObjects_lookup_eq ids h i :
  objectHighlightIndices (isolateObjects ids h) !! i =
  (fun _ => if decide (ids = []) then 0
            else if decide (Z.of_nat i ∈ ids) then 0 else 255)
    <$> (objectHighlightIndices h !! i).
Proof.
  rewrite isolateObjects_indices. destruct ids as [|id ids].
  - simpl. apply replicate_lookup_fmap.
  - destruct (decide (length (id :: ids) = 0%nat)) as [?|_]; [done|].
    destruct (decide (id :: ids = [])) as [?|_]; [done|].
    rewrite show_lookup, replicate_lookup_fmap.
    destruct (objectHighlightIndices h !! i); simpl; by case_decide.
Qed.

(** X1. What an earlier [isolateObjects] left in the array has no effect on
    a later one: isolating [ids] after [earlier] gives the array that
    isolating [ids] alone gives. *)
Theorem isolateObjects_overrides earlier ids h :
  objectHighlightIndices (isolateObjects ids (isolateObjects earlier h)) =
  objectHighlightIndices (isolateObjects ids h).
Proof.
  apply list_eq. intros i. rewrite !isolateObjects_lookup_eq.
  destruct (objectHighlightIndices h !! i); done.
Qed.

(** X2. The order of the ids and their repetitions do not matter: two id
    lists with the same members give the same array. *)
Theorem isolateObjects_same_members ids1 ids2 h :
  (∀ id, id ∈ ids1 ↔ id ∈ ids2) →
  objectHighlightIndices (isolateObjects ids1 h) =
  objectHighlightIndices (isolateObjects ids2 h).
Proof.
  intros Hsame. apply list_eq. intros i. rewrite !isolateObjects_lookup_eq.
  destruct (objectHighlightIndices h !! i) as [g|]; [simpl|done]. f_equal.
  destruct (decide (ids1 = [])) as [->|Hne1], (decide (ids2 = [])) as [->|Hne2].
  - done.
  - destruct ids2 as [|id ids2]; [done|].
    exfalso. eapply not_elem_of_nil, Hsame. by left.
  - destruct ids1 as [|id ids1]; [done|].
    exfalso. eapply not_elem_of_nil, Hsame. by left.
  - destruct (decide (Z.of_nat i ∈ ids1)) as [H1|H1],
             (decide (Z.of_nat i ∈ ids2)) as [H2|H2]; try done.
    + by apply Hsame in H1.
    + by apply Hsame in H2.
Qed.

Lemma isolateObjects_same_members_witness :
  objectHighlightIndices (isolateObjects [3; 1; 3] (mkHighlighter [9; 9; 9; 9] [])) =
  objectHighlightIndices (isolateObjects [1; 3] (mkHighlighter [9; 9; 9; 9] [])).
Proof.
  apply (isolateObjects_same_members [3; 1; 3] [1; 3] (mkHighlighter [9; 9; 9; 9] [])).
  intros id. rewrite !elem_of_cons, !elem_of_nil. tauto.
Defined.

(** X3. A non-empty id list none of whose ids names an element of the array
    hides every object: all entries are 255. *)
Theorem isolateObjects_outside_hides_all ids h :
  ids ≠ [] →
  Forall (outside (objectHighlightIndices h)) ids →
  objectHighlightIndices (isolateObjects ids h) =
  replicate (length (objectHighlightIndices h)) 255.
Proof.
  intros Hne Hout. apply list_eq. intros i.
  rewrite isolateObjects_lookup_eq, replicate_lookup_fmap.
  destruct (objectHighlightIndices h !! i) as [g|] eqn:Hi; [simpl|done]. f_equal.
  rewrite decide_False by done.
  destruct (decide (Z.of_nat i ∈ ids)) as [Hin|]; [|done].
  apply lookup_lt_Some in Hi.
  rewrite Forall_forall in Hout. destruct (Hout _ Hin) as [?|?]; lia.
Qed.

Lemma isolateObjects_outside_hides_all_witness :
  objectHighlightIndices (isolateObjects [7; -1] (mkHighlighter [0; 0; 0] [])) =
  replicate (length (objectHighlightIndices (mkHighlighter [0; 0; 0] []))) 255.
Proof.
  apply (isolateObjects_outside_hides_all [7; -1] (mkHighlighter [0; 0; 0] [])).
  - done.
  - repeat constructor; unfold outside; simpl; lia.
Defined.

End isolate_more.

(** ** The submit handler over whole runs *)

Section search_more.

Import Highlighter Search.

Implicit Types (st : State) (i : input) (inputs more : list input) (t : nat)
               (h : ObjectHighlighter) (text : string) (r : list Z).

Lemma run_app inputs more st : run st (inputs ++ more) = run (run st inputs) more.
Proof. unfold run. apply foldl_app. Qed.

Lemma main_init_tokens_created h : tokens_created (main_init h).
Proof. intros t [r Hr]. vm_compute in Hr. discriminate Hr. Qed.

Lemma reachable_tokens_created h inputs : tokens_created (run (main_init h) inputs).
Proof. apply run_tokens_created, main_init_tokens_created. Qed.

(** The result list of another handler is not touched by a step that
    neither is a match for it nor ends it. *)
Lemma step_collecting st i t r :
  tokens_created st →
  collecting st !! t = Some r →
  ends t i = false →
  collecting (step st i) !! t =
    Some (r ++ yields_for t [i]).
Proof.
  intros Hinv Ht Hend.
  assert (Hlt : (t < controllers st)%nat) by (apply Hinv; by rewrite Ht).
  destruct i as [text|t' s]; simpl.
  - rewrite app_nil_r. unfold submit. simpl.
    destruct (searching st); simpl; destruct (scene st); simpl;
      rewrite ?lookup_insert_ne by lia; done.
  - unfold resume. destruct (collecting st !! t') as [r'|] eqn:Ht'.
    + destruct s as [id| |]; simpl in *.
      * destruct (decide (t' = t)) as [->|Hne].
        -- rewrite lookup_insert_eq. congruence.
        -- rewrite lookup_insert_ne, app_nil_r by done. done.
      * apply bool_decide_eq_false in Hend.
        destruct (scene st); simpl; rewrite lookup_delete_ne, app_nil_r by done; done.
      * apply bool_decide_eq_false in Hend.
        rewrite lookup_delete_ne, app_nil_r by done. done.
    + destruct s as [id| |]; simpl; rewrite ?app_nil_r; try done.
      destruct (decide (t' = t)) as [->|Hne]; [congruence|].
      by rewrite app_nil_r.
Qed.

Lemma yields_for_cons t i more :
  yields_for t (i :: more) = yields_for t [i] ++ yields_for t more.
Proof.
  unfold yields_for. simpl.
  destruct i as [text|t' [id| |]]; simpl; try done. by case_decide.
Qed.

Lemma run_collecting more st t r :
  tokens_created st →
  collecting st !! t = Some r →
  forallb (fun i => negb (ends t i)) more = true →
  collecting (run st more) !! t = Some (r ++ yields_for t more).
Proof.
  revert st r. induction more as [|i more IH]; intros st r Hinv Ht Hends.
  - simpl. by rewrite app_nil_r.
  - simpl in Hends. apply andb_true_iff in Hends as [Hi Hends].
    apply negb_true_iff in Hi.
    change (run st (i :: more)) with (run (step st i) more).
    rewrite (IH (step st i) (r ++ yields_for t [i])); try done.
    + by rewrite (yields_for_cons t i more), app_assoc.
    + by apply step_tokens_created.
    + by apply step_collecting.
Qed.

(** What the completion of a collecting handler does. *)
Lemma resume_done st t r h :
  collecting st !! t = Some r →
  scene st = Some h →
  scene (resume t Done st) = Some (isolateObjects r h) ∧
  searching (resume t Done st) = false ∧
  trace (resume t Done st) = trace st ++ [Isolate t r] ∧
  collecting (resume t Done st) = delete t (collecting st).
Proof. intros Ht Hh. unfold resume. rewrite Ht. simpl. rewrite Hh. done. Qed.

(** X4. A session's result is its own matches, in the order they arrived,
    whatever is interleaved with them: from any state the program reaches, a
    submission followed by any inputs that do not end its sequence (matches
    for it, other submissions, other sessions' matches, completions and
    failures) and then by its completion calls [isolateObjects] with exactly
    the ids delivered to it, clears [searching], and retires the handler. *)
Theorem session_isolates_its_matches h inputs text more :
  forallb (fun i => negb (ends (controllers (run (main_init h) inputs)) i)) more = true →
  ∃ h',
    scene (run (main_init h) (inputs ++ Submit text :: more)) = Some h' ∧
    scene (run (main_init h) (inputs ++ Submit text :: more ++
             [Resume (controllers (run (main_init h) inputs)) Done])) =
      Some (isolateObjects
              (yields_for (controllers (run (main_init h) inputs)) more) h') ∧
    searching (run (main_init h) (inputs ++ Submit text :: more ++
             [Resume (controllers (run (main_init h) inputs)) Done])) = false ∧
    trace (run (main_init h) (inputs ++ Submit text :: more ++
             [Resume (controllers (run (main_init h) inputs)) Done])) =
      trace (run (main_init h) (inputs ++ Submit text :: more))
        ++ [Isolate (controllers (run (main_init h) inputs))
                    (yields_for (controllers (run (main_init h) inputs)) more)] ∧
    collecting (run (main_init h) (inputs ++ Submit text :: more ++
             [Resume (controllers (run (main_init h) inputs)) Done]))
      !! controllers (run (main_init h) inputs) = None.
Proof.
  intros Hends.
  set (st := run (main_init h) inputs) in *.
  set (t := controllers st) in *.
  destruct (run_scene_loaded inputs (main_init h)) as [h0 Hh0]; [by eexists|].
  fold st in Hh0.
  destruct (submit_loaded text st h0 Hh0) as (_ & Hcol & _ & _ & _ & Hsc).
  assert (Hstart : collecting (step st (Submit text)) !! t = Some []).
  { simpl. rewrite Hcol. apply lookup_insert_eq. }
  assert (Hrun : collecting (run (step st (Submit text)) more) !! t =
                 Some (yields_for t more)).
  { rewrite (run_collecting more _ t []); try done.
    apply step_tokens_created, reachable_tokens_created. }
  destruct (run_scene_loaded more (step st (Submit text))) as [h' Hh'].
  { simpl. rewrite Hsc. by eexists. }
  assert (E1 : run (main_init h) (inputs ++ Submit text :: more) =
               run (step st (Submit text)) more).
  { by rewrite run_app. }
  assert (E2 : run (main_init h) (inputs ++ Submit text :: more ++ [Resume t Done]) =
               resume t Done (run (step st (Submit text)) more)).
  { rewrite run_app. fold st.
    change (run st (Submit text :: more ++ [Resume t Done]))
      with (run (step st (Submit text)) (more ++ [Resume t Done])).
    by rewrite run_app. }
  exists h'. rewrite E1, E2.
  destruct (resume_done _ t _ h' Hrun Hh') as (-> & -> & -> & ->).
  rewrite lookup_delete_eq. done.
Qed.

Lemma session_isolates_its_matches_witness :
  ∃ h',
    scene (run (main_init (mkHighlighter [0; 0; 0] []))
               ([] ++ Submit "wall" :: [Resume 0 (Yield 2); Submit "door"; Resume 0 (Yield 1)]))
      = Some h' ∧
    scene (run (main_init (mkHighlighter [0; 0; 0] []))
               ([] ++ Submit "wall" :: [Resume 0 (Yield 2); Submit "door"; Resume 0 (Yield 1)]
                   ++ [Resume (controllers (run (main_init (mkHighlighter [0; 0; 0] [])) [])) Done]))
      = Some (isolateObjects
                (yields_for (controllers (run (main_init (mkHighlighter [0; 0; 0] [])) []))
                            [Resume 0 (Yield 2); Submit "door"; Resume 0 (Yield 1)]) h').
Proof.
  destruct (session_isolates_its_matches (mkHighlighter [0; 0; 0] []) [] "wall"
              [Resume 0 (Yield 2); Submit "door"; Resume 0 (Yield 1)])
    as (h' & H1 & H2 & _).
  - vm_compute. reflexivity.
  - exists h'. split; [exact H1 | exact H2].
Defined.

(** A step either leaves the scene and the number of [isolateObjects]
    calls as they are, or is the completion of a collecting handler. *)
Lemma step_scene st i h :
  scene st = Some h →
  (scene (step st i) = Some h ∧
   List.filter is_isolate (trace (step st i)) = List.filter is_isolate (trace st)) ∨
  (∃ t r, i = Resume t Done ∧ collecting st !! t = Some r ∧
          scene (step st i) = Some (isolateObjects r h) ∧
          trace (step st i) = trace st ++ [Isolate t r]).
Proof.
  intros Hh. destruct i as [text|t s]; simpl.
  - left. destruct (submit_loaded text st h Hh) as (-> & _ & _ & _ & _ & ->).
    split; [done|]. rewrite List.filter_app.
    destruct (searching st); simpl; by rewrite app_nil_r.
  - unfold resume. destruct (collecting st !! t) as [r|] eqn:Ht; [|by left].
    destruct s as [id| |]; simpl.
    + left. rewrite Hh, List.filter_app. simpl. by rewrite app_nil_r.
    + right. exists t, r. rewrite Hh. simpl. done.
    + left. rewrite Hh, List.filter_app. simpl. by rewrite app_nil_r.
Qed.

Lemma run_snoc inputs i st : run st (inputs ++ [i]) = step (run st inputs) i.
Proof. by rewrite run_app. Qed.

(** Over every run the array keeps its length and every [isolateObjects]
    call has committed once. *)
Lemma run_scene_invariant h inputs :
  ∃ h', scene (run (main_init h) inputs) = Some h' ∧
        length (objectHighlightIndices h') = length (objectHighlightIndices h) ∧
        commits h' =
          (commits h + length (List.filter is_isolate (trace (run (main_init h) inputs))))%nat.
Proof.
  induction inputs as [|i inputs IH] using rev_ind.
  - exists h. simpl. repeat split; lia.
  - destruct IH as (h' & Hh' & Hlen & Hcom). rewrite run_snoc.
    destruct (step_scene _ i h' Hh') as [[Hsc Htr]|(t & r & _ & _ & Hsc & Htr)].
    + exists h'. rewrite Htr. done.
    + exists (isolateObjects r h'). split; [done|]. split.
      * by rewrite isolateObjects_length.
      * rewrite isolateObjects_commits, Htr, List.filter_app, length_app, Hcom.
        simpl. lia.
Qed.

Lemma isolateObjects_indices_length ids h1 h2 :
  length (objectHighlightIndices h1) = length (objectHighlightIndices h2) →
  objectHighlightIndices (isolateObjects ids h1) =
  objectHighlightIndices (isolateObjects ids h2).
Proof. intros Hlen. by rewrite !isolateObjects_indices, Hlen. Qed.

(** X5. A search that ends without a match shows everything: from any state
    the program reaches, a submission whose sequence completes at once sets
    every entry of the index array to 0. *)
Theorem empty_result_shows_all h inputs text :
  indices_of (run (main_init h)
                  (inputs ++ [Submit text;
                              Resume (controllers (run (main_init h) inputs)) Done])) =
    Some (replicate (length (objectHighlightIndices h)) 0).
Proof.
  destruct (run_scene_invariant h inputs) as (h' & Hh' & Hlen & _).
  destruct (submit_loaded text _ h' Hh') as (_ & Hcol & _ & _ & _ & Hsc).
  rewrite run_app.
  change (run ?st [Submit text; Resume ?t Done])
    with (resume t Done (submit text st)).
  destruct (resume_done (submit text (run (main_init h) inputs))
              (controllers (run (main_init h) inputs)) [] h') as (Hres & _).
  - rewrite Hcol. apply lookup_insert_eq.
  - done.
  - unfold indices_of. rewrite Hres, <- Hlen. simpl. f_equal.
Qed.

Lemma step_scene_kept st i : completes i = false → scene (step st i) = scene st.
Proof.
  intros Hi. destruct i as [text|t s]; simpl.
  - unfold submit. simpl. destruct (searching st); simpl; by destruct (scene st).
  - unfold resume. destruct (collecting st !! t); [|done].
    by destruct s.
Qed.

(** X6. Only the completion of a sequence changes the scene: submissions,
    matches and failures, in any number and order, leave the highlighter,
    its index array and its calls, exactly as it was. *)
Theorem scene_kept_without_completion inputs st :
  forallb (fun i => negb (completes i)) inputs = true →
  scene (run st inputs) = scene st.
Proof.
  revert st. induction inputs as [|i inputs IH]; intros st Hall; [done|].
  simpl in Hall. apply andb_true_iff in Hall as [Hi Hall].
  apply negb_true_iff in Hi.
  change (run st (i :: inputs)) with (run (step st i) inputs).
  by rewrite IH, step_scene_kept.
Qed.

Lemma scene_kept_without_completion_witness :
  scene (run (main_init (mkHighlighter [7; 7] []))
             [Submit "wall"; Resume 0 (Yield 1); Submit "door"; Resume 0 Throw]) =
  scene (main_init (mkHighlighter [7; 7] [])).
Proof.
  apply (scene_kept_without_completion
           [Submit "wall"; Resume 0 (Yield 1); Submit "door"; Resume 0 Throw]
           (main_init (mkHighlighter [7; 7] []))).
  reflexivity.
Defined.

(** A step that completes a running search isolates its result; any other
    step leaves the scene and the [isolateObjects] calls as they are. *)
Lemma step_completion st i h :
  scene st = Some h →
  if completes_in st i
  then ∃ t r, i = Resume t Done ∧ collecting st !! t = Some r ∧
              scene (step st i) = Some (isolateObjects r h) ∧
              trace (step st i) = trace st ++ [Isolate t r]
  else scene (step st i) = Some h ∧
       List.filter is_isolate (trace (step st i)) = List.filter is_isolate (trace st).
Proof.
  intros Hh. destruct i as [text|t s]; simpl.
  - destruct (submit_loaded text st h Hh) as (-> & _ & _ & _ & _ & ->).
    split; [done|]. rewrite List.filter_app.
    destruct (searching st); simpl; by rewrite app_nil_r.
  - unfold resume. destruct (collecting st !! t) as [r|] eqn:Ht.
    + destruct s as [id| |]; simpl.
      * rewrite Hh, List.filter_app. simpl. by rewrite app_nil_r.
      * rewrite ?bool_decide_eq_true_2 by (by eexists).
        exists t, r. rewrite Hh. simpl. done.
      * rewrite Hh, List.filter_app. simpl. by rewrite app_nil_r.
    + by destruct s as [id| |].
Qed.

Lemma run_completions inputs st h :
  scene st = Some h →
  ∃ h', scene (run st inputs) = Some h' ∧
        commits h' = (commits h + completions st inputs)%nat ∧
        length (List.filter is_isolate (trace (run st inputs))) =
          (length (List.filter is_isolate (trace st)) + completions st inputs)%nat.
Proof.
  revert st h. induction inputs as [|i inputs IH]; intros st h Hh.
  - exists h. simpl. repeat split; [done | lia | lia].
  - change (run st (i :: inputs)) with (run (step st i) inputs).
    cbn [completions]. pose proof (step_completion st i h Hh) as Hstep.
    destruct (completes_in st i).
    + destruct Hstep as (t & r & _ & _ & Hsc & Htr).
      destruct (IH _ _ Hsc) as (h' & Hh' & Hcom & Hiso).
      exists h'. split; [done|].
      rewrite Hcom, Hiso, Htr, isolateObjects_commits, List.filter_app, length_app.
      simpl. lia.
    + destruct Hstep as (Hsc & Htr).
      destruct (IH _ _ Hsc) as (h' & Hh' & Hcom & Hiso).
      exists h'. split; [done|]. rewrite Hcom, Hiso, Htr. lia.
Qed.

(** X7. [commit] is called once for every search that completed and for
    nothing else: after any run the highlighter has been committed as often
    as a running search was completed by the inputs, submissions, matches,
    failures and pending searches adding nothing, and as often as
    [isolateObjects] was called. *)
Theorem one_commit_per_completed_search h inputs :
  (commits <$> scene (run (main_init h) inputs)) =
    Some (commits h + length (List.filter is_isolate (trace (run (main_init h) inputs))))%nat ∧
  (commits <$> scene (run (main_init h) inputs)) =
    Some (commits h + completions (main_init h) inputs)%nat ∧
  length (List.filter is_isolate (trace (run (main_init h) inputs))) =
    completions (main_init h) inputs.
Proof.
  destruct (run_completions inputs (main_init h) h) as (h' & Hh' & Hcom & Hiso);
    [done|].
  rewrite Hh'. simpl in *. rewrite Hcom, Hiso. done.
Qed.

Example completions_counts_completed_only :
  completions (main_init (mkHighlighter [0; 0] []))
    [Submit "wall"; Resume 0 (Yield 1); Submit "door"; Resume 1 Throw;
     Resume 1 Done; Resume 0 Done; Submit "roof"; Resume 5 Done] = 1%nat.
Proof. by vm_compute. Qed.

(** X8. The index array never changes its length, whatever ids the searches
    deliver. *)
Theorem index_length_constant h inputs :
  (length <$> indices_of (run (main_init h) inputs)) =
    Some (length (objectHighlightIndices h)).
Proof.
  unfold indices_of.
  destruct (run_scene_invariant h inputs) as (h' & Hh' & Hlen & _).
  rewrite Hh'. simpl. by rewrite Hlen.
Qed.

(** X9. The session that completes decides the array alone: whatever ran
    before, when a collecting handler completes the index array is the one
    that isolating its result in the initial array gives, also when a later
    submission is still collecting. *)
Theorem completion_decides_indices h inputs t r :
  collecting (run (main_init h) inputs) !! t = Some r →
  indices_of (step (run (main_init h) inputs) (Resume t Done)) =
    Some (objectHighlightIndices (isolateObjects r h)).
Proof.
  intros Ht.
  destruct (run_scene_invariant h inputs) as (h' & Hh' & Hlen & _).
  destruct (resume_done _ t r h' Ht Hh') as (Hres & _).
  unfold indices_of. simpl. rewrite Hres. simpl. f_equal.
  by apply isolateObjects_indices_length.
Qed.

Lemma completion_decides_indices_witness :
  indices_of (step (run (main_init (mkHighlighter [0; 0; 0] []))
                        [Submit "wall"; Resume 0 (Yield 2); Submit "door";
                         Resume 1 (Yield 0); Resume 1 Done])
                   (Resume 0 Done)) =
    Some (objectHighlightIndices (isolateObjects [2] (mkHighlighter [0; 0; 0] []))).
Proof.
  apply (completion_decides_indices (mkHighlighter [0; 0; 0] [])
           [Submit "wall"; Resume 0 (Yield 2); Submit "door";
            Resume 1 (Yield 0); Resume 1 Done] 0%nat [2]).
  vm_compute. reflexivity.
Defined.

Lemma collecting_session_never_aborted_witness :
  0%nat ∉ aborted (run (run (main_init (mkHighlighter [] [])) [Submit "wall"])
                       [Submit "door"; Submit "roof"]).
Proof.
  apply (collecting_session_never_aborted (mkHighlighter [] []) [Submit "wall"]
           [Submit "door"; Submit "roof"] 0%nat).
  - vm_compute. by eexists.
  - vm_compute. intros H. discriminate H.
Defined.

Lemma resume_counts st t s :
  controllers (resume t s st) = controllers st ∧
  List.filter is_search_call (trace (resume t s st)) =
    List.filter is_search_call (trace st).
Proof.
  unfold resume. destruct (collecting st !! t); [|done].
  destruct s; simpl; rewrite ?List.filter_app; simpl; rewrite ?app_nil_r; try done.
  destruct (scene st); simpl; rewrite ?List.filter_app; simpl; by rewrite ?app_nil_r.
Qed.

(** X10. Every submission creates one [AbortController] and makes one
    [search] call: after any run both numbers equal the number of
    submissions; none is skipped or queued, whatever is still running. *)
Theorem one_search_per_submission h inputs :
  controllers (run (main_init h) inputs) = length (List.filter is_submit inputs) ∧
  length (List.filter is_search_call (trace (run (main_init h) inputs))) =
    length (List.filter is_submit inputs).
Proof.
  induction inputs as [|i inputs IH] using rev_ind; [done|].
  destruct IH as [IHc IHs]. rewrite run_snoc, List.filter_app, length_app.
  destruct i as [text|t s]; simpl.
  - destruct (run_scene_loaded inputs (main_init h)) as [h' Hh']; [by eexists|].
    destruct (submit_loaded text _ h' Hh') as (-> & _ & _ & _ & -> & _).
    rewrite IHc, !List.filter_app, !length_app, IHs.
    destruct (searching (run (main_init h) inputs)); simpl; lia.
  - destruct (resume_counts (run (main_init h) inputs) t s) as [-> ->]. lia.
Qed.

(** X16. A submission never replaces or retires a handler that is still
    collecting: in every state the program reaches it adds one suspended
    handler to those there are, so overlapping searches all stay in
    flight. *)
Theorem submission_adds_a_session h inputs text :
  size (collecting (step (run (main_init h) inputs) (Submit text))) =
    S (size (collecting (run (main_init h) inputs))) ∧
  (∀ t r, collecting (run (main_init h) inputs) !! t = Some r →
          collecting (step (run (main_init h) inputs) (Submit text)) !! t = Some r).
Proof.
  destruct (run_scene_loaded inputs (main_init h)) as [h' Hh']; [by eexists|].
  destruct (submit_loaded text _ h' Hh') as (_ & Hcol & _).
  pose proof (reachable_tokens_created h inputs) as Hinv.
  assert (Hfresh : collecting (run (main_init h) inputs)
                     !! controllers (run (main_init h) inputs) = None).
  { apply eq_None_not_Some. intros Hsome. apply Hinv in Hsome. lia. }
  simpl. rewrite Hcol. split.
  - by apply map_size_insert_None.
  - intros t r Ht. rewrite lookup_insert_ne; [done|]. intros <-. congruence.
Qed.

End search_more.

(** ** The render loop over whole runs *)

Section render_more.

Import RenderLoop.

Implicit Types (f : Frame) (st : State) (frames : list Frame).

Lemma loop_snoc frames f st : loop (frames ++ [f]) st = iteration f (loop frames st).
Proof. by rewrite loop_app. Qed.

Lemma omap_snoc {A B} (g : A → option B) (l : list A) (x : A) :
  omap g (l ++ [x]) = omap g l ++ match g x with Some y => [y] | None => [] end.
Proof. rewrite omap_app. simpl. by destruct (g x). Qed.

(** X11. No image is left open and none is closed twice: over any number of
    iterations the images closed are exactly the images the engine
    returned, in the order of the frames, whether or not the canvas gave a
    bitmap context. *)
Theorem every_image_closed_once frames st :
  omap closed_image (calls (loop frames st)) =
    omap closed_image (calls st) ++ omap image frames.
Proof.
  induction frames as [|f frames IH] using rev_ind.
  - symmetry. apply app_nil_r.
  - rewrite loop_snoc, iteration_calls, omap_app, IH, omap_snoc, <- app_assoc.
    f_equal. f_equal. rewrite loop_has_ctx.
    destruct (image f) as [img|]; [|done].
    by destruct (has_ctx st).
Qed.

(** X12. With a bitmap context every image returned is transferred to the
    canvas, in order, and the canvas ends up showing the last of them (what
    it showed before when no frame carried an image); without a context
    nothing is ever transferred and the canvas keeps what it showed. *)
Theorem transfers_and_display frames st :
  omap transferred_image (calls (loop frames st)) =
    omap transferred_image (calls st)
      ++ (if has_ctx st then omap image frames else []) ∧
  displayed (loop frames st) =
    (if has_ctx st
     then match last (omap image frames) with
          | Some img => Some img
          | None => displayed st
          end
     else displayed st).
Proof.
  induction frames as [|f frames IH] using rev_ind.
  - split; [|by destruct (has_ctx st)].
    symmetry. destruct (has_ctx st); apply app_nil_r.
  - destruct IH as [IHt IHd]. split.
    + rewrite loop_snoc, iteration_calls, omap_app, IHt, omap_snoc, <- app_assoc.
      f_equal. rewrite loop_has_ctx.
      destruct (image f) as [img|], (has_ctx st); simpl; by rewrite ?app_nil_r.
    + rewrite loop_snoc, iteration_displayed, loop_has_ctx, IHd, omap_snoc.
      destruct (image f) as [img|], (has_ctx st); simpl;
        rewrite ?app_nil_r, ?last_snoc; done.
Qed.

(** X13. The canvas size is read and applied anew in every iteration, and
    one frame is rendered per iteration: the sizes applied are the sizes of
    the frames in order, unchanged sizes included. *)
Theorem size_applied_every_iteration frames st :
  omap applied_size (calls (loop frames st)) =
    omap applied_size (calls st)
      ++ ((fun f => (clientWidth f, clientHeight f)) <$> frames) ∧
  length (List.filter is_render (calls (loop frames st))) =
    (length (List.filter is_render (calls st)) + length frames)%nat.
Proof.
  induction frames as [|f frames IH] using rev_ind.
  - split; [symmetry; apply app_nil_r | simpl; lia].
  - destruct IH as [IHa IHr].
    rewrite loop_snoc, iteration_calls, omap_app, List.filter_app, !length_app,
      IHa, IHr, fmap_app, <- app_assoc.
    destruct (image f) as [img|]; [destruct (has_ctx (loop frames st))|];
      simpl; (split; [done | lia]).
Qed.

End render_more.

(** ** The buttons of [main] *)

Section buttons_facts.

Import PositionButton Buttons.

Implicit Types (c : Click) (cs : list Click) (bs : list Button) (b : Button)
               (i n : nat) (p : Page).

Lemma click_lookup c bs i :
  (click c bs).1 !! i =
  (fun b => if bool_decide (slot c = i) &&
               (shiftKey (event c) && (button (event c) =? 0))
            then pose_of (camera_at c) else b) <$> (bs !! i).
Proof.
  unfold click. destruct (bs !! slot c) as [b0|] eqn:Hs; simpl.
  - destruct (decide (slot c = i)) as [<-|Hne].
    + rewrite list_lookup_insert_eq by (by eapply lookup_lt_Some).
      rewrite Hs, bool_decide_eq_true_2 by done. simpl.
      unfold onmousedown, pose_of.
      destruct (shiftKey (event c)), (button (event c) =? 0); done.
    + rewrite list_lookup_insert_ne, bool_decide_eq_false_2 by done. simpl.
      by destruct (bs !! i).
  - destruct (decide (slot c = i)) as [<-|Hne].
    + by rewrite Hs.
    + rewrite bool_decide_eq_false_2 by done. simpl. by destruct (bs !! i).
Qed.

Lemma clicks_lookup cs bs i :
  clicks cs bs !! i = last_capture i cs <$> (bs !! i).
Proof.
  unfold clicks, last_capture. revert bs.
  induction cs as [|c cs IH]; intros bs; simpl.
  - by destruct (bs !! i).
  - rewrite IH, click_lookup. by destruct (bs !! i).
Qed.

(** X14. Each button keeps its own pose: after any sequence of clicks on any
    of the buttons, a plain primary-button press on button [i] calls
    [moveTo] once, with the camera pose at the last capture made on button
    [i] itself, or with the pose button [i] started with when none was
    made; captures and recalls on the other buttons have no effect on
    it. *)
Theorem recall_moves_to_own_last_capture cs bs i b camera :
  bs !! i = Some b →
  (click (mkClick i (mkMouseEvent false 0) camera) (clicks cs bs)).2 =
    [MoveTo (positionX (last_capture i cs b),
             positionY (last_capture i cs b),
             positionZ (last_capture i cs b))
            (stored_rotation (last_capture i cs b))].
Proof.
  intros Hb. unfold click. simpl. by rewrite clicks_lookup, Hb.
Qed.

Lemma recall_moves_to_own_last_capture_witness :
  (click (mkClick 1 (mkMouseEvent false 0) (mkCamera (9, 9, 9)%float (0, 0, 1, 0)%float))
         (clicks [mkClick 1 (mkMouseEvent true 0)
                          (mkCamera (1, 2, 3)%float (0, 0, 0, 1)%float);
                  mkClick 0 (mkMouseEvent true 0)
                          (mkCamera (4, 5, 6)%float (0, 1, 0, 0)%float);
                  mkClick 1 (mkMouseEvent true 2)
                          (mkCamera (7, 8, 9)%float (1, 0, 0, 0)%float)]
                 [constructor; constructor; constructor])).2 =
    [MoveTo (1, 2, 3)%float (0, 0, 0, 1)%float].
Proof.
  apply (recall_moves_to_own_last_capture
           [mkClick 1 (mkMouseEvent true 0)
                    (mkCamera (1, 2, 3)%float (0, 0, 0, 1)%float);
            mkClick 0 (mkMouseEvent true 0)
                    (mkCamera (4, 5, 6)%float (0, 1, 0, 0)%float);
            mkClick 1 (mkMouseEvent true 2)
                    (mkCamera (7, 8, 9)%float (1, 0, 0, 0)%float)]
           [constructor; constructor; constructor] 1%nat constructor
           (mkCamera (9, 9, 9)%float (0, 0, 1, 0)%float)).
  reflexivity.
Defined.

Lemma create_loop_containers n first others bs :
  create_loop n (mkPage (first :: others) bs) =
    Some (mkPage
            ((first ++ ((fun k => mkElement "Slot" (length bs + k)) <$> seq 0 n))
               :: others)
            (bs ++ replicate n constructor)).
Proof.
  revert first bs. induction n as [|n IH]; intros first bs.
  - simpl. by rewrite !app_nil_r.
  - cbn [create_loop]. unfold createButtons. cbn [containers buttons].
    rewrite IH. f_equal. f_equal.
    + f_equal. rewrite <- app_assoc. f_equal. simpl. f_equal.
      * f_equal. lia.
      * rewrite <- fmap_S_seq, <- list_fmap_compose. apply list_fmap_ext.
        intros _ k _. simpl. f_equal. rewrite length_app. simpl. lia.
    + by rewrite <- app_assoc.
Qed.

(** X15. The loop that creates the buttons appends one element labelled
    "Slot" per round to the first container, after what it holds, in the
    order of creation and each tied to its own new [PositionButton]; the other
    containers are left alone and every new button starts with the
    constructor's pose. With no container at all the first round throws, so
    with one round or more the loop does not finish. *)
Theorem create_loop_appends_slots n first others bs :
  create_loop n (mkPage (first :: others) bs) =
    Some (mkPage
            ((first ++ ((fun k => mkElement "Slot" (length bs + k)) <$> seq 0 n))
               :: others)
            (bs ++ replicate n constructor)) ∧
  create_loop (S n) (mkPage [] bs) = None.
Proof. split; [apply create_loop_containers | reflexivity]. Qed.

End buttons_facts.
